(** * hello world.c: a GameBoy prompt-and-wait program

    The program under verification is [roms/source/hello world.c]:
<<
    void main() {
      printf("Press 'start'...\n\n");
      waitpad(J_START);
      printf("You win!\n");
    }
>>
    It talks to its environment (the text console and the joypad) and its
    middle statement may loop forever, so it is embedded as an interaction
    tree: console writes and joypad reads are events, the polling loop of
    [waitpad] is [ITree.iter].  The meaning of a tree is given twice: as a
    labelled step relation whose states are the residual programs, and as
    an executable runner over a finite list of joypad readings. *)

From Stdlib Require Import ZArith List String Ascii Bool Lia.
From ITree Require Import ITree Eq.Shallow.
Import ListNotations ITreeNotations.
Local Open Scope itree_scope.
Local Open Scope string_scope.
Local Open Scope Z_scope.

(** ** The platform: console and joypad *)

Module Gbdk.

(** What a GameBoy program asks of its platform.  [Printf fmt] writes the
    text [fmt] to the console; [Joypad] reads the joypad register, one
    bit per button (a [UINT8], kept as a [Z]). *)
Variant gbE : Type -> Type :=
| Printf (fmt : string) : gbE unit
| Joypad : gbE Z.

(** Modelled from the spec: [printf] is the development kit's, declared by
    <stdio.h> and not in the source tree.  At a format without arguments
    it is one write of the text to the output surface. *)
Definition printf (fmt : string) : itree gbE unit :=
  ITree.trigger (Printf fmt).

(** Modelled from the spec: [joypad] is the development kit's read of the
    input surface, declared by <gb/gb.h> and not in the source tree; it
    answers the current state of the buttons. *)
Definition joypad : itree gbE Z :=
  ITree.trigger Joypad.

(** Modelled from the spec: the macro [J_START] is declared by the header
    <gb/gb.h> of the development kit, which is not in the source tree.
    It is the mask of the designated control ("start") in a joypad
    reading; the kit gives it the top bit of the byte. *)
Definition J_START : Z := 0x80.

(** One poll of [waitpad]: read the joypad and either go round again
    ([inl]) or leave the loop with the reading ([inr]). *)
Definition waitpad_poll (mask : Z) (_ : unit) : itree gbE (unit + Z) :=
  pad <- joypad ;;
  if Z.land pad mask =? 0 then Ret (inl tt) else Ret (inr pad).

(** Modelled from the spec: the function [waitpad] is declared by
    <gb/gb.h> and implemented by the development kit, which is not in the
    source tree.  It blocks, polling the joypad, until a control of
    [mask] is observed as pressed, and has no timeout. *)
Definition waitpad (mask : Z) : itree gbE Z :=
  ITree.iter (waitpad_poll mask) tt.

End Gbdk.
Import Gbdk.

(** ** The program *)

(** The line feed, written [\n] in a C literal. *)
Definition LF : ascii := "010"%char.

(** The C literal ["Press 'start'...\n\n"]. *)
Definition prompt : string :=
  "Press 'start'..." ++ String LF (String LF EmptyString).

(** The C literal ["You win!\n"]. *)
Definition congrats : string :=
  "You win!" ++ String LF EmptyString.

(** A format is plain when it holds no [%], so that [printf] has nothing
    to convert. *)
Fixpoint plain (fmt : string) : bool :=
  match fmt with
  | EmptyString => true
  | String c fmt' => negb (Ascii.eqb c "%"%char) && plain fmt'
  end.

(** Residual programs of [main] are trees over [gbE] that return nothing. *)
Definition prog : Type := itree gbE unit.

(** [main], statement by statement. *)
Definition main : prog :=
  printf prompt ;;
  waitpad J_START ;;
  printf congrats.

(** ** Semantics *)

(** What a program does next. *)
Inductive action : Type :=
| Halt
| Silent (t : prog)
| Emit (s : string) (t : prog)
| Poll (k : Z -> prog).

Definition next (t : prog) : action :=
  match observe t with
  | RetF _ => Halt
  | TauF u => Silent u
  | VisF e k =>
      match e in gbE X return (X -> prog) -> action with
      | Printf s => fun k => Emit s (k tt)
      | Joypad => fun k => Poll k
      end k
  end.

(** Observable events: text written to the console, a joypad reading
    taken by the program. *)
Inductive event : Type :=
| Out (s : string)
| Key (pad : Z).

Definition event_eq_dec (a b : event) : {a = b} + {a <> b}.
Proof. decide equality; [apply string_dec | apply Z.eq_dec]. Defined.

(** The labels of a step: an event, or nothing for a silent step. *)
Definition obs (l : option event) : list event :=
  match l with
  | Some e => [e]
  | None => []
  end.

Inductive step : prog -> option event -> prog -> Prop :=
| step_silent t u :
    next t = Silent u -> step t None u
| step_emit t s u :
    next t = Emit s u -> step t (Some (Out s)) u
| step_poll t k pad :
    next t = Poll k -> step t (Some (Key pad)) (k pad).

(** Executions, with the events seen so far (oldest first). *)
Inductive steps (t : prog) : list event -> prog -> Prop :=
| steps_nil : steps t [] t
| steps_snoc tr u l v :
    steps t tr u -> step u l v -> steps t (tr ++ obs l) v.

(** The joypad readings of a trace, and the content of the console. *)
Fixpoint inputs (tr : list event) : list Z :=
  match tr with
  | [] => []
  | Key pad :: tr' => pad :: inputs tr'
  | Out _ :: tr' => inputs tr'
  end.

Fixpoint outputs (tr : list event) : list string :=
  match tr with
  | [] => []
  | Out s :: tr' => s :: outputs tr'
  | Key _ :: tr' => outputs tr'
  end.

Definition screen (tr : list event) : string :=
  String.concat EmptyString (outputs tr).

(** A reading shows the start button down when its [J_START] bit is set. *)
Definition pressed (pad : Z) : bool :=
  negb (Z.land pad J_START =? 0).

(** *** Running on a finite list of readings *)

Inductive status : Type :=
| Returned      (* [main] has returned *)
| Blocked       (* polling, and no reading is left *)
| Running.      (* stopped by the step bound *)

Record result : Type := mkResult
  { trace : list event;
    state : status;
    unread : list Z }.

Definition emitted (e : event) (r : result) : result :=
  mkResult (e :: trace r) (state r) (unread r).

Fixpoint exec (fuel : nat) (t : prog) (ins : list Z) : result :=
  match fuel with
  | O => mkResult [] Running ins
  | S n =>
      match next t with
      | Halt => mkResult [] Returned ins
      | Silent u => exec n u ins
      | Emit s u => emitted (Out s) (exec n u ins)
      | Poll k =>
          match ins with
          | [] => mkResult [] Blocked []
          | pad :: ins' => emitted (Key pad) (exec n (k pad) ins')
          end
      end
  end.

(** Two steps for each reading, one for each message. *)
Definition enough (ins : list Z) : nat := (2 * List.length ins + 2)%nat.

Definition run (ins : list Z) : result := exec (enough ins) main ins.

(** [prepend tr r]: the result [r], after the events [tr]. *)
Definition prepend (tr : list event) (r : result) : result :=
  mkResult (tr ++ trace r) (state r) (unread r).

(** A state is quiescent when it does nothing more without a new reading:
    it has returned, or it is polling. *)
Definition quiescent (t : prog) : bool :=
  match next t with
  | Halt | Poll _ => true
  | Silent _ | Emit _ _ => false
  end.

(** ** Program points

    The residual programs that an execution of [main] goes through, by the
    statement that control is at. *)

Inductive point : Type :=
| at_prompt      (* before the first [printf] *)
| at_poll        (* in [waitpad], about to read the joypad *)
| at_retry       (* in [waitpad], about to go round the loop *)
| at_congrats    (* before the second [printf] *)
| at_return.     (* at the end of [main] *)

(** What is left of [main] once the prompt is written. *)
Definition waiting : prog :=
  waitpad J_START ;;
  printf congrats.

(** What is left of [waitpad mask ;; k] once the joypad has answered
    [pad]: the test of the loop, and then either the loop again or [k]. *)
Definition on_pad (mask : Z) (k : Z -> prog) (pad : Z) : prog :=
  ITree.bind
    (ITree.bind
       (ITree.bind (Ret pad)
          (fun pad => if Z.land pad mask =? 0
                      then Ret (inl tt) else Ret (inr pad)))
       (fun lr => ITree.on_left lr l (Tau (ITree.iter (waitpad_poll mask) l))))
    k.

Definition residual (p : point) : prog :=
  match p with
  | at_prompt => main
  | at_poll => waiting
  | at_retry => Tau waiting
  | at_congrats => printf congrats
  | at_return => Ret tt
  end.

(** A state is at a point when it goes on as the residual program does. *)
Definition at_point (p : point) (t : prog) : Prop :=
  next t = next (residual p).

(** The control flow of [main] between its points. *)
Inductive flow : point -> option event -> point -> Prop :=
| flow_prompt :
    flow at_prompt (Some (Out prompt)) at_poll
| flow_miss pad :
    pressed pad = false -> flow at_poll (Some (Key pad)) at_retry
| flow_hit pad :
    pressed pad = true -> flow at_poll (Some (Key pad)) at_congrats
| flow_retry :
    flow at_retry None at_poll
| flow_congrats :
    flow at_congrats (Some (Out congrats)) at_return.

(** The events seen by the time control is at a point: the prompt, the
    readings that did not show start, the one that did, the second
    message. *)
Definition seen (p : point) (tr : list event) : Prop :=
  match p with
  | at_prompt => tr = []
  | at_poll | at_retry =>
      exists misses,
        existsb pressed misses = false /\
        tr = Out prompt :: map Key misses
  | at_congrats =>
      exists misses hit,
        existsb pressed misses = false /\ pressed hit = true /\
        tr = Out prompt :: map Key misses ++ [Key hit]
  | at_return =>
      exists misses hit,
        existsb pressed misses = false /\ pressed hit = true /\
        tr = Out prompt :: map Key misses ++ [Key hit; Out congrats]
  end.

(** The execution state of the specification's data model, and its
    transition: from [awaiting_input] to [completed] on a reading that
    shows start, and nothing else. *)
Inductive exec_state : Type :=
| awaiting_input
| completed.

Definition spec_transition (s : exec_state) (l : option event) : exec_state :=
  match s, l with
  | awaiting_input, Some (Key pad) =>
      if pressed pad then completed else awaiting_input
  | _, _ => s
  end.

(** The execution state of a program point: [completed] once [waitpad]
    has returned. *)
Definition exec_state_of (p : point) : exec_state :=
  match p with
  | at_prompt | at_poll | at_retry => awaiting_input
  | at_congrats | at_return => completed
  end.

(** ** Proof support *)

Create HintDb gb discriminated.
Create Rewrite HintDb gb_next.
Create Rewrite HintDb gb_trace.
#[local] Hint Constructors flow step : gb.

(** ** One step of each residual program *)

Lemma next_main :
  next main = Emit prompt (ITree.bind (Ret tt) (fun _ => waiting)).
Proof. reflexivity. Qed.

Lemma next_started :
  next (ITree.bind (Ret tt) (fun _ => waiting)) = next waiting.
Proof. reflexivity. Qed.

Lemma next_waitpad (mask : Z) (k : Z -> prog) :
  next (ITree.bind (waitpad mask) k) = Poll (on_pad mask k).
Proof. reflexivity. Qed.

Lemma next_on_pad (mask : Z) (k : Z -> prog) (pad : Z) :
  next (on_pad mask k pad) =
  if Z.land pad mask =? 0
  then Silent (ITree.bind (waitpad mask) k)
  else next (k pad).
Proof.
  unfold on_pad, next.
  rewrite observe_bind,
    (observe_bind (ITree.bind (Ret pad) _)), (observe_bind (Ret pad)).
  cbn [observe _observe].
  destruct (Z.land pad mask =? 0); reflexivity.
Qed.

Lemma next_waiting :
  next waiting = Poll (on_pad J_START (fun _ => printf congrats)).
Proof. apply next_waitpad. Qed.

Lemma next_congrats :
  next (printf congrats) = Emit congrats (Ret tt).
Proof. reflexivity. Qed.

Lemma next_answered (pad : Z) :
  next (on_pad J_START (fun _ => printf congrats) pad) =
  if pressed pad then Emit congrats (Ret tt) else Silent waiting.
Proof.
  rewrite next_on_pad. unfold pressed.
  destruct (Z.land pad J_START =? 0); reflexivity.
Qed.

Lemma next_retry : next (Tau waiting) = Silent waiting.
Proof. reflexivity. Qed.

Lemma next_return : next (Ret tt) = Halt.
Proof. reflexivity. Qed.

#[local] Hint Rewrite next_main next_started next_waiting next_answered
  next_congrats next_retry next_return : gb_next.

(** Expose the next action of the residual program of a known point. *)
Ltac at_residual H :=
  unfold at_point in H; cbn [residual] in H; autorewrite with gb_next in H.


(** ** The program follows its control flow, and nothing else *)

Lemma at_point_residual (p : point) : at_point p (residual p).
Proof. reflexivity. Qed.

Lemma step_flow (p : point) (t : prog) (l : option event) (t' : prog) :
  at_point p t -> step t l t' ->
  exists p', flow p l p' /\ at_point p' t'.
Proof.
  intros Hp Hs.
  destruct p; at_residual Hp; inversion Hs; subst; try congruence.
  - (* the prompt *)
    exists at_poll. replace s with prompt by congruence.
    split; [constructor|].
    replace t' with (ITree.bind (Ret tt) (fun _ : unit => waiting))
      by congruence.
    unfold at_point. now rewrite next_started.
  - (* a reading *)
    assert (k = on_pad J_START (fun _ => printf congrats)) by congruence.
    subst k. destruct (pressed pad) eqn:Hpad.
    + exists at_congrats. split; [now constructor|].
      unfold at_point. rewrite next_answered, Hpad. reflexivity.
    + exists at_retry. split; [now constructor|].
      unfold at_point. rewrite next_answered, Hpad. reflexivity.
  - (* round the loop *)
    exists at_poll. split; [constructor|].
    replace t' with waiting by congruence. reflexivity.
  - (* the second message *)
    exists at_return. replace s with congrats by congruence.
    split; [constructor|].
    replace t' with (Ret tt : prog) by congruence. reflexivity.
Qed.

Lemma flow_step (p : point) (t : prog) (l : option event) (p' : point) :
  at_point p t -> flow p l p' ->
  exists t', step t l t' /\ at_point p' t'.
Proof.
  intros Hp Hf.
  destruct Hf; at_residual Hp.
  - eexists. split; [eauto with gb|].
    unfold at_point. now rewrite next_started.
  - eexists. split; [eauto with gb|].
    unfold at_point. now rewrite next_answered, H.
  - eexists. split; [eauto with gb|].
    unfold at_point. now rewrite next_answered, H.
  - eexists. split; [eauto with gb|]. reflexivity.
  - eexists. split; [eauto with gb|]. reflexivity.
Qed.

Lemma flow_deterministic (p : point) (l : option event) (p1 p2 : point) :
  flow p l p1 -> flow p l p2 -> p1 = p2.
Proof.
  intros H1 H2. destruct H1; inversion H2; subst; congruence.
Qed.

Lemma existsb_snoc (f : Z -> bool) (xs : list Z) (x : Z) :
  existsb f (xs ++ [x]) = existsb f xs || f x.
Proof. rewrite existsb_app. simpl. now rewrite orb_false_r. Qed.

Lemma seen_flow (p : point) (tr : list event) (l : option event) (p' : point) :
  seen p tr -> flow p l p' -> seen p' (tr ++ obs l).
Proof.
  intros Hseen Hf. destruct Hf; cbn [seen obs] in *.
  - subst tr. exists []. split; reflexivity.
  - destruct Hseen as (misses & Hm & ->).
    exists (misses ++ [pad])%list. split.
    + rewrite existsb_snoc, Hm, H. reflexivity.
    + rewrite map_app. reflexivity.
  - destruct Hseen as (misses & Hm & ->).
    exists misses, pad. repeat split; assumption.
  - rewrite app_nil_r. assumption.
  - destruct Hseen as (misses & hit & Hm & Hhit & ->).
    exists misses, hit. repeat split; try assumption.
    cbn. rewrite <- app_assoc. reflexivity.
Qed.

(** Every reachable state of [main] is at a point, having seen what that
    point has seen. *)
Lemma reachable (tr : list event) (t : prog) :
  steps main tr t -> exists p, at_point p t /\ seen p tr.
Proof.
  induction 1 as [|tr u l v _ (p & Hp & Hseen) Hstep].
  - exists at_prompt. split; reflexivity.
  - destruct (step_flow _ _ _ _ Hp Hstep) as (p' & Hf & Hp').
    exists p'. split; [assumption|]. eapply seen_flow; eassumption.
Qed.

(** ** The runner and the step relation agree *)

Lemma steps_cons (t : prog) (l : option event) (u : prog)
      (tr : list event) (v : prog) :
  step t l u -> steps u tr v -> steps t (obs l ++ tr) v.
Proof.
  intros Hstep Hsteps. induction Hsteps as [|tr u' l' v _ IH Hlast].
  - rewrite app_nil_r. apply (steps_snoc t [] t l u); [constructor | assumption].
  - rewrite app_assoc. eapply steps_snoc; eassumption.
Qed.

(** What the runner reports is an execution: its trace is a trace of the
    step relation, it read a prefix of the readings, and its status tells
    where it stopped. *)
Lemma exec_sound (fuel : nat) :
  forall (t : prog) (ins : list Z),
  exists t',
    steps t (trace (exec fuel t ins)) t' /\
    ins = (inputs (trace (exec fuel t ins)) ++ unread (exec fuel t ins))%list /\
    (state (exec fuel t ins) = Returned -> next t' = Halt) /\
    (state (exec fuel t ins) = Blocked ->
     unread (exec fuel t ins) = [] /\ exists k, next t' = Poll k).
Proof.
  induction fuel as [|n IH]; intros t ins; cbn [exec].
  - exists t. cbn. repeat split; try discriminate. constructor.
  - destruct (next t) as [|u|s u|k] eqn:Hnext.
    + exists t. cbn. repeat split; try discriminate; [constructor | auto].
    + destruct (IH u ins) as (t' & Hsteps & Hins & Hret & Hblk).
      exists t'. repeat split; try tauto.
      apply (steps_cons t None u); [now constructor | assumption].
    + destruct (IH u ins) as (t' & Hsteps & Hins & Hret & Hblk).
      exists t'. cbn. repeat split; try tauto.
      apply (steps_cons t (Some (Out s)) u); [now constructor | assumption].
    + destruct ins as [|pad ins'].
      * exists t. cbn. repeat split; try discriminate; [constructor | eauto].
      * destruct (IH (k pad) ins') as (t' & Hsteps & Hins & Hret & Hblk).
        exists t'. cbn. repeat split; try tauto.
        -- apply (steps_cons t (Some (Key pad)) (k pad));
             [now constructor | assumption].
        -- now f_equal.
Qed.

(** The runner looks at a state through [next] only. *)
Lemma exec_next (fuel : nat) (t u : prog) (ins : list Z) :
  next t = next u -> exec fuel t ins = exec fuel u ins.
Proof. intros H. destruct fuel; cbn [exec]; [reflexivity | now rewrite H]. Qed.

(** ** Closed forms of the runner *)


Lemma exec_main (fuel : nat) (ins : list Z) :
  exec (S fuel) main ins = emitted (Out prompt) (exec fuel waiting ins).
Proof.
  cbn [exec]. rewrite next_main. f_equal. apply exec_next, next_started.
Qed.

Lemma exec_waiting_blocked (fuel : nat) :
  exec (S fuel) waiting [] = mkResult [] Blocked [].
Proof. cbn [exec]. now rewrite next_waiting. Qed.

Lemma exec_waiting_miss (fuel : nat) (pad : Z) (ins : list Z) :
  pressed pad = false ->
  exec (S (S fuel)) waiting (pad :: ins) =
  emitted (Key pad) (exec fuel waiting ins).
Proof.
  intros Hpad. cbn [exec]. now rewrite next_waiting, next_answered, Hpad.
Qed.

Lemma exec_waiting_hit (fuel : nat) (pad : Z) (ins : list Z) :
  pressed pad = true ->
  exec (S (S (S fuel))) waiting (pad :: ins) =
  mkResult [Key pad; Out congrats] Returned ins.
Proof.
  intros Hpad. cbn [exec].
  now rewrite next_waiting, next_answered, Hpad, next_return.
Qed.

Lemma exec_waiting_misses (misses : list Z) :
  existsb pressed misses = false ->
  forall (fuel : nat) (rest : list Z),
    exec (2 * List.length misses + fuel) waiting (misses ++ rest) =
    prepend (map Key misses) (exec fuel waiting rest).
Proof.
  induction misses as [|pad misses IH]; intros Hm fuel rest.
  - cbn. now destruct (exec fuel waiting rest).
  - cbn [existsb] in Hm. apply orb_false_iff in Hm as [Hpad Hm].
    replace (2 * List.length (pad :: misses) + fuel)%nat
      with (S (S (2 * List.length misses + fuel))) by (cbn; lia).
    cbn [app]. rewrite exec_waiting_miss by assumption.
    rewrite IH by assumption. reflexivity.
Qed.

(** With no reading that shows start, the program writes the prompt, takes
    every reading and is left polling. *)
Lemma exec_idle (ins : list Z) (fuel : nat) :
  existsb pressed ins = false ->
  (enough ins <= fuel)%nat ->
  exec fuel main ins = mkResult (Out prompt :: map Key ins) Blocked [].
Proof.
  intros Hidle Hfuel. unfold enough in Hfuel.
  replace fuel
    with (S (2 * List.length ins + S (fuel - 2 * List.length ins - 2)))
    by lia.
  rewrite exec_main.
  pose proof (exec_waiting_misses ins Hidle
                (S (fuel - 2 * List.length ins - 2)) []) as Hloop.
  rewrite app_nil_r in Hloop. rewrite Hloop, exec_waiting_blocked.
  unfold prepend, emitted. cbn. now rewrite app_nil_r.
Qed.

(** With a reading that shows start, the program writes the prompt, takes
    the readings up to that one, writes the second message and returns;
    later readings are not taken. *)
Lemma exec_hit (misses : list Z) (hit : Z) (rest : list Z) (fuel : nat) :
  existsb pressed misses = false ->
  pressed hit = true ->
  (2 * List.length misses + 4 <= fuel)%nat ->
  exec fuel main (misses ++ hit :: rest) =
  mkResult (Out prompt :: map Key misses ++ [Key hit; Out congrats])
           Returned rest.
Proof.
  intros Hidle Hhit Hfuel.
  replace fuel
    with (S (2 * List.length misses
             + S (S (S (fuel - 2 * List.length misses - 4)))))
    by lia.
  rewrite exec_main, exec_waiting_misses by assumption.
  rewrite exec_waiting_hit by assumption. reflexivity.
Qed.

(** Any list of readings either never shows start, or splits at the first
    reading that does. *)
Lemma first_press (ins : list Z) :
  existsb pressed ins = false \/
  exists misses hit rest,
    ins = (misses ++ hit :: rest)%list /\
    existsb pressed misses = false /\ pressed hit = true.
Proof.
  induction ins as [|pad ins IH].
  - now left.
  - destruct (pressed pad) eqn:Hpad.
    + right. exists [], pad, ins. now repeat split.
    + destruct IH as [Hidle | (misses & hit & rest & -> & Hm & Hhit)].
      * left. cbn. now rewrite Hpad.
      * right. exists (pad :: misses), hit, rest. repeat split; trivial.
        cbn. now rewrite Hpad.
Qed.

(** ** Traces *)

Lemma inputs_app (tr1 tr2 : list event) :
  inputs (tr1 ++ tr2) = (inputs tr1 ++ inputs tr2)%list.
Proof.
  induction tr1 as [|[s|pad] tr1 IH]; cbn; [reflexivity | assumption |].
  now rewrite IH.
Qed.

Lemma outputs_app (tr1 tr2 : list event) :
  outputs (tr1 ++ tr2) = (outputs tr1 ++ outputs tr2)%list.
Proof.
  induction tr1 as [|[s|pad] tr1 IH]; cbn; [reflexivity | | assumption].
  now rewrite IH.
Qed.

Lemma inputs_keys (pads : list Z) : inputs (map Key pads) = pads.
Proof. induction pads as [|pad pads IH]; cbn; [reflexivity | now rewrite IH]. Qed.

Lemma outputs_keys (pads : list Z) : outputs (map Key pads) = [].
Proof. induction pads as [|pad pads IH]; cbn; [reflexivity | assumption]. Qed.

Lemma count_occ_keys (pads : list Z) (s : string) :
  count_occ event_eq_dec (map Key pads) (Out s) = 0%nat.
Proof.
  induction pads as [|pad pads IH]; cbn; [reflexivity|].
  destruct (event_eq_dec (Key pad) (Out s)); [discriminate | assumption].
Qed.

Lemma prompt_not_congrats : prompt <> congrats.
Proof. discriminate. Qed.

#[local] Hint Rewrite inputs_app outputs_app inputs_keys outputs_keys
  app_nil_r : gb_trace.

(** The points of one state. *)
Lemma at_point_functional (t : prog) (p q : point) :
  at_point p t -> at_point q t -> p = q.
Proof.
  unfold at_point. intros Hp Hq. rewrite Hp in Hq. clear Hp.
  destruct p, q; cbn [residual] in Hq; autorewrite with gb_next in Hq;
    reflexivity || discriminate.
Qed.

(** One step from a state is determined by the reading it is given. *)
Lemma step_deterministic (t : prog) (l1 l2 : option event) (u1 u2 : prog) :
  step t l1 u1 -> step t l2 u2 ->
  inputs (obs l1) = inputs (obs l2) ->
  l1 = l2 /\ u1 = u2.
Proof.
  intros H1 H2 Hin.
  destruct H1 as [t u1 E1|t s1 u1 E1|t k1 pad1 E1];
    inversion H2 as [? ? E2|? ? ? E2|? ? ? E2]; subst;
    rewrite E1 in E2; try discriminate.
  - split; congruence.
  - split; congruence.
  - cbn in Hin. assert (pad = pad1) by congruence. subst.
    split; congruence.
Qed.


(** While no reading shows start, [waitpad] goes on: the runner neither
    writes nor returns, whatever its step bound. *)
Lemma exec_waiting_idle (ins : list Z) :
  existsb pressed ins = false ->
  forall fuel : nat,
    outputs (trace (exec fuel waiting ins)) = [] /\
    state (exec fuel waiting ins) <> Returned.
Proof.
  induction ins as [|pad ins IH]; intros Hidle fuel.
  - destruct fuel; [|rewrite exec_waiting_blocked]; cbn; split; congruence.
  - cbn [existsb] in Hidle. apply orb_false_iff in Hidle as [Hpad Hidle].
    destruct fuel as [|[|fuel]].
    + cbn. split; congruence.
    + cbn [exec]. rewrite next_waiting. cbn. split; congruence.
    + rewrite exec_waiting_miss by assumption. cbn. now apply IH.
Qed.

(** ** Execution states *)

Lemma flow_transition (p : point) (l : option event) (p' : point) :
  flow p l p' ->
  exec_state_of p' = spec_transition (exec_state_of p) l.
Proof.
  intros Hf. destruct Hf; cbn; try reflexivity; now rewrite H.
Qed.

Lemma seen_exec_state (p : point) (tr : list event) :
  seen p tr ->
  exec_state_of p =
  if existsb pressed (inputs tr) then completed else awaiting_input.
Proof.
  destruct p; cbn [seen exec_state_of].
  - now intros ->.
  - intros (misses & Hmisses & ->). cbn [inputs].
    now rewrite inputs_keys, Hmisses.
  - intros (misses & Hmisses & ->). cbn [inputs].
    now rewrite inputs_keys, Hmisses.
  - intros (misses & hit & _ & Hhit & ->). cbn [inputs].
    autorewrite with gb_trace. cbn [inputs].
    now rewrite existsb_snoc, Hhit, orb_true_r.
  - intros (misses & hit & _ & Hhit & ->). cbn [inputs].
    autorewrite with gb_trace. cbn [inputs].
    now rewrite existsb_snoc, Hhit, orb_true_r.
Qed.

Lemma quiescent_point (p : point) (t : prog) :
  at_point p t -> quiescent t = true -> p = at_poll \/ p = at_return.
Proof.
  intros Hp Hq. unfold quiescent in Hq.
  destruct p; at_residual Hp; rewrite Hp in Hq; auto; discriminate.
Qed.

(** With enough steps the runner has run the program as far as the
    readings take it: a larger bound changes nothing. *)
Lemma exec_enough (ins : list Z) (fuel : nat) :
  (enough ins <= fuel)%nat -> exec fuel main ins = run ins.
Proof.
  intros Hfuel. unfold run.
  destruct (first_press ins)
    as [Hidle | (misses & hit & rest & -> & Hmisses & Hhit)].
  - now rewrite !exec_idle.
  - unfold enough in *. rewrite length_app in *. cbn [List.length] in *.
    rewrite !exec_hit; trivial; lia.
Qed.

(** The formats of [main] hold no conversion: [printf] writes them as
    they are. *)
Lemma formats_plain : plain prompt = true /\ plain congrats = true.
Proof. split; reflexivity. Qed.

(** The program starts at its first statement, awaiting input. *)
Lemma initial_state :
  at_point at_prompt main /\ exec_state_of at_prompt = awaiting_input.
Proof. split; reflexivity. Qed.

(** ** Sample executions *)

Lemma steps_prompt :
  steps main [Out prompt] (ITree.bind (Ret tt) (fun _ : unit => waiting)).
Proof.
  apply (steps_snoc main [] main (Some (Out prompt))); [constructor|].
  apply step_emit, next_main.
Qed.

Lemma steps_answered (pad : Z) :
  steps main [Out prompt; Key pad]
        (on_pad J_START (fun _ => printf congrats) pad).
Proof.
  eapply (steps_snoc main [Out prompt] _ (Some (Key pad)));
    [apply steps_prompt|].
  apply step_poll. rewrite next_started. apply next_waiting.
Qed.

Lemma steps_return (pad : Z) :
  pressed pad = true ->
  steps main [Out prompt; Key pad; Out congrats] (Ret tt).
Proof.
  intros Hpad.
  eapply (steps_snoc main [Out prompt; Key pad] _ (Some (Out congrats)));
    [apply steps_answered|].
  apply step_emit. now rewrite next_answered, Hpad.
Qed.

Lemma steps_miss_return (miss hit : Z) :
  pressed miss = false -> pressed hit = true ->
  steps main [Out prompt; Key miss; Key hit; Out congrats] (Ret tt).
Proof.
  intros Hmiss Hhit.
  assert (Hback : steps main [Out prompt; Key miss] waiting).
  { apply (steps_snoc main [Out prompt; Key miss] _ None waiting
             (steps_answered miss)).
    apply step_silent. now rewrite next_answered, Hmiss. }
  assert (Hpoll : steps main [Out prompt; Key miss; Key hit]
                        (on_pad J_START (fun _ => printf congrats) hit)).
  { apply (steps_snoc main [Out prompt; Key miss] waiting (Some (Key hit)) _
             Hback).
    apply step_poll, next_waiting. }
  apply (steps_snoc main [Out prompt; Key miss; Key hit] _
           (Some (Out congrats)) (Ret tt) Hpoll).
  apply step_emit. now rewrite next_answered, Hhit.
Qed.

(** ** The properties of the specification *)

(** C1.  The observable sequence of [main]: it writes the text
    [Press 'start'...] followed by a blank line (two line feeds), then
    polls the joypad and stays blocked while no reading shows start, and on
    the first reading that does it writes the text [You win!] (with the
    line feed of the C literal) and returns, leaving later readings
    unread. *)
Theorem main_observable_sequence
        (misses : list Z) (hit : Z) (rest : list Z) (fuel : nat)
        (Hmisses : existsb pressed misses = false)
        (Hhit : pressed hit = true)
        (Hfuel : (2 * List.length misses + 4 <= fuel)%nat) :
  exec fuel main misses =
    mkResult
      (Out ("Press 'start'..." ++ String LF (String LF EmptyString))
         :: map Key misses)
      Blocked [] /\
  exec fuel main (misses ++ hit :: rest) =
    mkResult
      (Out ("Press 'start'..." ++ String LF (String LF EmptyString))
         :: map Key misses
         ++ [Key hit; Out ("You win!" ++ String LF EmptyString)])
      Returned rest.
Proof.
  split.
  - apply (exec_idle misses fuel); [assumption | unfold enough; lia].
  - now apply (exec_hit misses hit rest fuel).
Qed.

Lemma main_observable_sequence_witness :
  exec 8 main [0; 1] =
    mkResult
      (Out ("Press 'start'..." ++ String LF (String LF EmptyString))
         :: map Key [0; 1])
      Blocked [] /\
  exec 8 main ([0; 1] ++ 128 :: [0; 128]) =
    mkResult
      (Out ("Press 'start'..." ++ String LF (String LF EmptyString))
         :: map Key [0; 1]
         ++ [Key 128; Out ("You win!" ++ String LF EmptyString)])
      Returned [0; 128].
Proof.
  apply (main_observable_sequence [0; 1] 128 [0; 128] 8);
    [reflexivity | reflexivity | cbn; lia].
Defined.



(** C3.  Blocking: along every execution whose readings never show start,
    the second message is not written, [main] has not returned, and
    control is still before or inside [waitpad]. *)
Theorem blocking (tr : list event) (t : prog)
        (Hsteps : steps main tr t)
        (Hidle : existsb pressed (inputs tr) = false) :
  ~ List.In (Out congrats) tr /\
  next t <> Halt /\
  exists p, at_point p t /\ (p = at_prompt \/ p = at_poll \/ p = at_retry).
Proof.
  destruct (reachable tr t Hsteps) as (p & Hp & Hseen).
  assert (Hwait : p = at_prompt \/ p = at_poll \/ p = at_retry).
  { destruct p; auto; cbn [seen] in Hseen;
      destruct Hseen as (misses & hit & _ & Hhit & ->);
      cbn [inputs] in Hidle; autorewrite with gb_trace in Hidle;
      cbn [inputs] in Hidle; rewrite existsb_app in Hidle;
      cbn [existsb] in Hidle; rewrite Hhit, orb_true_r in Hidle;
      discriminate. }
  repeat split.
  - intros Hin.
    destruct Hwait as [-> | [-> | ->]]; cbn [seen] in Hseen.
    + subst tr. contradiction.
    + destruct Hseen as (misses & _ & ->).
      destruct Hin as [Heq | Hin]; [discriminate|].
      apply in_map_iff in Hin as (pad & Heq & _). discriminate.
    + destruct Hseen as (misses & _ & ->).
      destruct Hin as [Heq | Hin]; [discriminate|].
      apply in_map_iff in Hin as (pad & Heq & _). discriminate.
  - destruct Hwait as [-> | [-> | ->]]; at_residual Hp; congruence.
  - exists p. split; assumption.
Qed.

Lemma blocking_witness :
  ~ List.In (Out congrats) [Out prompt; Key 0] /\
  next (on_pad J_START (fun _ => printf congrats) 0) <> Halt /\
  exists p,
    at_point p (on_pad J_START (fun _ => printf congrats) 0) /\
    (p = at_prompt \/ p = at_poll \/ p = at_retry).
Proof.
  apply (blocking [Out prompt; Key 0] _ (steps_answered 0)). reflexivity.
Defined.

(** C4.  Initial output: once the program has started and as long as it
    has taken no reading, the console holds exactly the text
    [Press 'start'...] followed by a blank line. *)
Theorem initial_output (tr : list event) (t : prog)
        (Hsteps : steps main tr t)
        (Hstarted : tr <> [])
        (Hnone : inputs tr = []) :
  tr = [Out ("Press 'start'..." ++ String LF (String LF EmptyString))] /\
  screen tr = "Press 'start'..." ++ String LF (String LF EmptyString).
Proof.
  destruct (reachable tr t Hsteps) as (p & _ & Hseen).
  assert (Hshape : exists misses, tr = Out prompt :: map Key misses).
  { destruct p; cbn [seen] in Hseen.
    - contradiction.
    - destruct Hseen as (misses & _ & ->). now exists misses.
    - destruct Hseen as (misses & _ & ->). now exists misses.
    - destruct Hseen as (misses & hit & _ & _ & ->).
      cbn [inputs] in Hnone. autorewrite with gb_trace in Hnone.
      now destruct misses.
    - destruct Hseen as (misses & hit & _ & _ & ->).
      cbn [inputs] in Hnone. autorewrite with gb_trace in Hnone.
      now destruct misses. }
  destruct Hshape as (misses & ->).
  cbn [inputs] in Hnone. rewrite inputs_keys in Hnone. subst misses.
  split; reflexivity.
Qed.

Lemma initial_output_witness :
  [Out prompt] =
    [Out ("Press 'start'..." ++ String LF (String LF EmptyString))] /\
  screen [Out prompt] =
    "Press 'start'..." ++ String LF (String LF EmptyString).
Proof.
  apply (initial_output [Out prompt] _ steps_prompt);
    [discriminate | reflexivity].
Defined.

(** C5.  Ordering: in every execution the events come as the prompt, then
    the readings of the wait, then the second message.  The prompt is
    written whole before the first reading; the second message follows the
    reading that showed start, which is the last one; no write falls
    between two readings. *)
Theorem ordering (tr : list event) (t : prog)
        (Hsteps : steps main tr t) :
  tr = [] \/
  (exists polls, tr = Out prompt :: map Key polls) \/
  (exists misses hit,
      existsb pressed misses = false /\ pressed hit = true /\
      tr = Out prompt :: map Key (misses ++ [hit]) ++ [Out congrats]).
Proof.
  destruct (reachable tr t Hsteps) as (p & _ & Hseen).
  destruct p; cbn [seen] in Hseen.
  - now left.
  - destruct Hseen as (misses & _ & ->). right; left. now exists misses.
  - destruct Hseen as (misses & _ & ->). right; left. now exists misses.
  - destruct Hseen as (misses & hit & _ & _ & ->). right; left.
    exists (misses ++ [hit])%list. now rewrite map_app.
  - destruct Hseen as (misses & hit & Hmisses & Hhit & ->). right; right.
    exists misses, hit. repeat split; try assumption.
    rewrite map_app. cbn. now rewrite <- app_assoc.
Qed.

Lemma ordering_witness :
  [Out prompt; Key 128; Out congrats] = [] \/
  (exists polls,
      [Out prompt; Key 128; Out congrats] = Out prompt :: map Key polls) \/
  (exists misses hit,
      existsb pressed misses = false /\ pressed hit = true /\
      [Out prompt; Key 128; Out congrats] =
        Out prompt :: map Key (misses ++ [hit]) ++ [Out congrats]).
Proof.
  apply (ordering [Out prompt; Key 128; Out congrats] (Ret tt)).
  apply steps_return. reflexivity.
Defined.

(** C6.  End to end: on two readings without start and then one with
    start, the whole output is the line [Press 'start'...], a blank line
    and the line [You win!], and the program has returned. *)
Theorem end_to_end_scenario (idle1 idle2 start : Z) (fuel : nat)
        (Hidle1 : pressed idle1 = false)
        (Hidle2 : pressed idle2 = false)
        (Hstart : pressed start = true)
        (Hfuel : (8 <= fuel)%nat) :
  screen (trace (exec fuel main [idle1; idle2; start])) =
    "Press 'start'..." ++ String LF (String LF
      ("You win!" ++ String LF EmptyString)) /\
  outputs (trace (exec fuel main [idle1; idle2; start])) =
    ["Press 'start'..." ++ String LF (String LF EmptyString);
     "You win!" ++ String LF EmptyString] /\
  state (exec fuel main [idle1; idle2; start]) = Returned /\
  unread (exec fuel main [idle1; idle2; start]) = [].
Proof.
  change [idle1; idle2; start] with ([idle1; idle2] ++ start :: [])%list.
  rewrite exec_hit; trivial.
  - repeat split; reflexivity.
  - cbn. now rewrite Hidle1, Hidle2.
Qed.

Lemma end_to_end_scenario_witness :
  screen (trace (exec 8 main [0; 0; 128])) =
    "Press 'start'..." ++ String LF (String LF
      ("You win!" ++ String LF EmptyString)) /\
  outputs (trace (exec 8 main [0; 0; 128])) =
    ["Press 'start'..." ++ String LF (String LF EmptyString);
     "You win!" ++ String LF EmptyString] /\
  state (exec 8 main [0; 0; 128]) = Returned /\
  unread (exec 8 main [0; 0; 128]) = [].
Proof.
  apply (end_to_end_scenario 0 0 128 8);
    [reflexivity | reflexivity | reflexivity | lia].
Defined.

(** C7.  No input: on readings that never show start, and on no reading
    at all, the output is the characters [Press 'start'...] and two line
    feeds whatever the step bound, and the program does not return. *)
Theorem no_input_scenario (ins : list Z) (fuel : nat)
        (Hidle : existsb pressed ins = false) :
  screen (trace (exec (S fuel) main ins)) =
    "Press 'start'..." ++ String LF (String LF EmptyString) /\
  state (exec (S fuel) main ins) <> Returned.
Proof.
  rewrite exec_main.
  destruct (exec_waiting_idle ins Hidle fuel) as [Hout Hstate].
  split; [|assumption].
  unfold screen. cbn [emitted trace outputs]. rewrite Hout. reflexivity.
Qed.

Lemma no_input_scenario_witness :
  screen (trace (exec 4 main [])) =
    "Press 'start'..." ++ String LF (String LF EmptyString) /\
  state (exec 4 main []) <> Returned.
Proof.
  apply (no_input_scenario [] 3). reflexivity.
Defined.

(** C8.  Execution state: every reachable state of [main] is at exactly one
    program point, whose execution state is [awaiting_input] or
    [completed]; it is [awaiting_input] at the start and as long as no
    reading has shown start, and [completed] from the first reading that
    does; every step moves it as the specification's transition says, and
    no step leaves [completed]. *)
Theorem execution_state (tr : list event) (t : prog)
        (Hsteps : steps main tr t) :
  exists p,
    at_point p t /\
    (forall q, at_point q t -> q = p) /\
    exec_state_of p =
      (if existsb pressed (inputs tr) then completed else awaiting_input) /\
    forall l t',
      step t l t' ->
      exists p',
        at_point p' t' /\
        exec_state_of p' = spec_transition (exec_state_of p) l /\
        (exec_state_of p = completed -> exec_state_of p' = completed).
Proof.
  destruct (reachable tr t Hsteps) as (p & Hp & Hseen).
  exists p. repeat split.
  - assumption.
  - intros q Hq. eapply at_point_functional; eassumption.
  - now apply seen_exec_state.
  - intros l t' Hstep.
    destruct (step_flow p t l t' Hp Hstep) as (p' & Hf & Hp').
    exists p'. repeat split; [assumption | now apply flow_transition |].
    intros Hdone. rewrite (flow_transition p l p' Hf), Hdone. reflexivity.
Qed.

Lemma execution_state_witness :
  exists p,
    at_point p (on_pad J_START (fun _ => printf congrats) 128) /\
    (forall q,
        at_point q (on_pad J_START (fun _ => printf congrats) 128) ->
        q = p) /\
    exec_state_of p =
      (if existsb pressed (inputs [Out prompt; Key 128])
       then completed else awaiting_input) /\
    forall l t',
      step (on_pad J_START (fun _ => printf congrats) 128) l t' ->
      exists p',
        at_point p' t' /\
        exec_state_of p' = spec_transition (exec_state_of p) l /\
        (exec_state_of p = completed -> exec_state_of p' = completed).
Proof.
  apply (execution_state [Out prompt; Key 128] _ (steps_answered 128)).
Defined.





(** ** Further properties of [main] *)

(** The test of [waitpad (J_START)] looks at bit 7 of a reading and at
    nothing else. *)
Lemma pressed_bit7 (pad : Z) : pressed pad = Z.testbit pad 7.
Proof.
  unfold pressed, J_START.
  assert (Hland : Z.land pad 128 = if Z.testbit pad 7 then 128 else 0).
  { apply Z.bits_inj'. intros n Hn.
    rewrite Z.land_spec. change 128 with (2 ^ 7).
    rewrite Z.pow2_bits_eqb by lia.
    destruct (Z.eqb_spec 7 n) as [<- | Hneq].
    - rewrite andb_true_r. destruct (Z.testbit pad 7).
      + now rewrite Z.pow2_bits_eqb, Z.eqb_refl by lia.
      + now rewrite Z.bits_0.
    - rewrite andb_false_r. destruct (Z.testbit pad 7).
      + rewrite Z.pow2_bits_eqb by lia.
        symmetry. now apply Z.eqb_neq.
      + now rewrite Z.bits_0. }
  rewrite Hland. now destruct (Z.testbit pad 7).
Qed.

Lemma exec_returned (fuel : nat) (ins : list Z) :
  exec (S fuel) (Ret tt) ins = mkResult [] Returned ins.
Proof. reflexivity. Qed.

(** What two results have in common when the runs that gave them differ
    in their readings only: the texts written, the status, the number of
    readings taken. *)
Lemma exec_waiting_agree (fuel : nat) :
  forall ins1 ins2 : list Z,
    map pressed ins1 = map pressed ins2 ->
    outputs (trace (exec fuel waiting ins1)) =
      outputs (trace (exec fuel waiting ins2)) /\
    state (exec fuel waiting ins1) = state (exec fuel waiting ins2) /\
    List.length (inputs (trace (exec fuel waiting ins1))) =
      List.length (inputs (trace (exec fuel waiting ins2))).
Proof.
  induction fuel as [fuel IH] using lt_wf_ind. intros ins1 ins2 Hmap.
  destruct fuel as [|fuel]; [now cbn|].
  destruct ins1 as [|pad1 ins1], ins2 as [|pad2 ins2]; try discriminate.
  - now rewrite exec_waiting_blocked.
  - cbn [map] in Hmap. injection Hmap as Hpad Hmap.
    cbn [exec]. rewrite next_waiting.
    destruct fuel as [|fuel]; [now cbn|].
    cbn [exec]. rewrite !next_answered, <- Hpad.
    destruct (pressed pad1).
    + destruct fuel as [|fuel]; [now cbn|].
      rewrite !exec_returned. now cbn.
    + destruct (IH fuel (ltac:(lia)) ins1 ins2 Hmap) as (Hout & Hstate & Hlen).
      cbn. now rewrite Hout, Hstate, Hlen.
Qed.

(** X1.  Only the start button matters: two lists of readings that agree
    on bit 7 of every reading, whatever the other seven buttons do, give
    the same texts on the console, the same status and the same number of
    readings taken, at every step bound. *)
Theorem other_buttons_ignored (ins1 ins2 : list Z) (fuel : nat)
        (Hstart : map (fun pad => Z.testbit pad 7) ins1 =
                  map (fun pad => Z.testbit pad 7) ins2) :
  screen (trace (exec fuel main ins1)) = screen (trace (exec fuel main ins2)) /\
  state (exec fuel main ins1) = state (exec fuel main ins2) /\
  List.length (inputs (trace (exec fuel main ins1))) =
    List.length (inputs (trace (exec fuel main ins2))).
Proof.
  assert (Hmap : map pressed ins1 = map pressed ins2).
  { rewrite (map_ext pressed (fun pad => Z.testbit pad 7) pressed_bit7 ins1).
    rewrite (map_ext pressed (fun pad => Z.testbit pad 7) pressed_bit7 ins2).
    assumption. }
  destruct fuel as [|fuel]; [now cbn|].
  rewrite !exec_main.
  destruct (exec_waiting_agree fuel ins1 ins2 Hmap) as (Hout & Hstate & Hlen).
  unfold screen. cbn. now rewrite Hout, Hstate, Hlen.
Qed.

Lemma other_buttons_ignored_witness :
  screen (trace (exec 6 main [1; 0x90; 0])) =
    screen (trace (exec 6 main [0x42; 0x80; 0x7f])) /\
  state (exec 6 main [1; 0x90; 0]) = state (exec 6 main [0x42; 0x80; 0x7f]) /\
  List.length (inputs (trace (exec 6 main [1; 0x90; 0]))) =
    List.length (inputs (trace (exec 6 main [0x42; 0x80; 0x7f]))).
Proof.
  apply (other_buttons_ignored [1; 0x90; 0] [0x42; 0x80; 0x7f] 6).
  reflexivity.
Defined.

Lemma steps_app (t : prog) (tr : list event) (u : prog)
      (tr' : list event) (v : prog) :
  steps t tr u -> steps u tr' v -> steps t (tr ++ tr') v.
Proof.
  intros Hfirst Hthen. induction Hthen as [|tr' u' l v _ IH Hlast].
  - now rewrite app_nil_r.
  - rewrite app_assoc. eapply steps_snoc; eassumption.
Qed.

(** An execution goes on along an edge of the control flow. *)
Lemma steps_flow (t0 : prog) (tr : list event) (t : prog)
      (p : point) (l : option event) (p' : point) :
  steps t0 tr t -> at_point p t -> flow p l p' ->
  exists t', steps t0 (tr ++ obs l) t' /\ at_point p' t'.
Proof.
  intros Hsteps Hp Hf.
  destruct (flow_step p t l p' Hp Hf) as (t' & Hstep & Hp').
  exists t'. split; [eapply steps_snoc; eassumption | assumption].
Qed.

(** From the poll, one reading that shows start takes [main] to its end. *)
Lemma finish_from_poll (t : prog) (pad : Z) :
  at_point at_poll t -> pressed pad = true ->
  exists t', steps t [Key pad; Out congrats] t' /\ at_point at_return t'.
Proof.
  intros Hp Hpad.
  destruct (steps_flow t [] t at_poll (Some (Key pad)) at_congrats
              (steps_nil t) Hp (flow_hit pad Hpad)) as (u & Hu & Hpu).
  destruct (steps_flow t _ u at_congrats (Some (Out congrats)) at_return
              Hu Hpu flow_congrats) as (v & Hv & Hpv).
  now exists v.
Qed.

(** X2.  One press is enough, wherever the program is: from every
    reachable state and for every reading that shows start, the program
    can run on to its return taking that reading at most once and no
    other, and the console then holds both messages. *)
Theorem one_press_finishes (tr : list event) (t : prog) (pad : Z)
        (Hsteps : steps main tr t)
        (Hpad : pressed pad = true) :
  exists tr' t',
    steps t tr' t' /\
    next t' = Halt /\
    (inputs tr' = [] \/ inputs tr' = [pad]) /\
    screen (tr ++ tr') =
      "Press 'start'..." ++ String LF (String LF EmptyString)
      ++ "You win!" ++ String LF EmptyString.
Proof.
  destruct (reachable tr t Hsteps) as (p & Hp & _).
  assert (Hfinish : exists tr' t',
             steps t tr' t' /\ at_point at_return t' /\
             (inputs tr' = [] \/ inputs tr' = [pad])).
  { destruct p.
    - destruct (steps_flow t [] t at_prompt _ at_poll
                  (steps_nil t) Hp flow_prompt) as (u & Hu & Hpu).
      destruct (finish_from_poll u pad Hpu Hpad) as (v & Hv & Hpv).
      exists ([Out prompt] ++ [Key pad; Out congrats])%list, v.
      repeat split; [eapply steps_app; eassumption | assumption | now right].
    - destruct (finish_from_poll t pad Hp Hpad) as (v & Hv & Hpv).
      exists [Key pad; Out congrats], v. repeat split; auto.
    - destruct (steps_flow t [] t at_retry _ at_poll
                  (steps_nil t) Hp flow_retry) as (u & Hu & Hpu).
      destruct (finish_from_poll u pad Hpu Hpad) as (v & Hv & Hpv).
      exists ([] ++ [Key pad; Out congrats])%list, v.
      repeat split; [eapply steps_app; eassumption | assumption | now right].
    - destruct (steps_flow t [] t at_congrats _ at_return
                  (steps_nil t) Hp flow_congrats) as (v & Hv & Hpv).
      exists [Out congrats], v. repeat split; auto.
    - exists [], t. repeat split; [constructor | assumption | now left]. }
  destruct Hfinish as (tr' & t' & Hsteps' & Hp' & Hin).
  exists tr', t'. repeat split; try assumption.
  destruct (reachable (tr ++ tr') t' (steps_app _ _ _ _ _ Hsteps Hsteps'))
    as (q & Hq & Hseen).
  rewrite (at_point_functional t' q at_return Hq Hp') in Hseen.
  cbn [seen] in Hseen. destruct Hseen as (misses & hit & _ & _ & ->).
  unfold screen. cbn [outputs]. autorewrite with gb_trace. reflexivity.
Qed.

Lemma one_press_finishes_witness :
  exists tr' t',
    steps (on_pad J_START (fun _ => printf congrats) 0) tr' t' /\
    next t' = Halt /\
    (inputs tr' = [] \/ inputs tr' = [0x81]) /\
    screen ([Out prompt; Key 0] ++ tr') =
      "Press 'start'..." ++ String LF (String LF EmptyString)
      ++ "You win!" ++ String LF EmptyString.
Proof.
  apply (one_press_finishes [Out prompt; Key 0] _ 0x81 (steps_answered 0)).
  reflexivity.
Defined.

(** X3.  The program comes to rest: on every list of readings, within two
    steps for each reading and two more, [main] has returned if some
    reading shows start and is otherwise blocked polling for a reading;
    it is never still busy. *)
Theorem run_settles (ins : list Z) (fuel : nat)
        (Hfuel : (2 * List.length ins + 2 <= fuel)%nat) :
  state (exec fuel main ins) =
    (if existsb pressed ins then Returned else Blocked).
Proof.
  destruct (first_press ins)
    as [Hidle | (misses & hit & rest & -> & Hmisses & Hhit)].
  - rewrite exec_idle, Hidle; trivial.
  - rewrite length_app in Hfuel. cbn [List.length] in Hfuel.
    rewrite exec_hit by (trivial; lia).
    rewrite existsb_app. cbn [existsb]. rewrite Hhit, orb_true_r.
    reflexivity.
Qed.

Lemma run_settles_witness :
  state (exec 8 main [0; 4; 0x10]) =
    (if existsb pressed [0; 4; 0x10] then Returned else Blocked).
Proof.
  apply (run_settles [0; 4; 0x10] 8). cbn. lia.
Defined.

(** X4.  No poll after start: once a reading has shown start, the only
    step left to the program is the write of the second message, after
    which it has returned; it never reads the joypad again. *)
Theorem no_poll_after_start (tr : list event) (t : prog)
        (l : option event) (t' : prog)
        (Hsteps : steps main tr t)
        (Hseen : existsb pressed (inputs tr) = true)
        (Hstep : step t l t') :
  l = Some (Out congrats) /\ next t' = Halt.
Proof.
  destruct (reachable tr t Hsteps) as (p & Hp & Hshape).
  pose proof (seen_exec_state p tr Hshape) as Hstate.
  rewrite Hseen in Hstate.
  destruct (step_flow p t l t' Hp Hstep) as (p' & Hf & Hp').
  destruct Hf; try discriminate.
  split; [reflexivity | now at_residual Hp'].
Qed.

Lemma no_poll_after_start_witness :
  Some (Out congrats) = Some (Out congrats) /\ next (Ret tt : prog) = Halt.
Proof.
  apply (no_poll_after_start
           [Out prompt; Key 128]
           (on_pad J_START (fun _ => printf congrats) 128)
           (Some (Out congrats)) (Ret tt)
           (steps_answered 128)).
  - reflexivity.
  - apply step_emit. reflexivity.
Defined.
